(** * sails-mongo: the connection manager of [lib/connection.js]

    A shallow embedding of the adapter's connection layer.  The file
    models the JavaScript values the code reads, the deferred results of
    the promise library as their eventual outcomes, the wrapped database
    driver as an oracle answering every call, and each method of
    [Connection] as a computation in a state-and-exception monad whose
    state records the driver calls issued and the deferred results
    created.

    One operation is followed at a time: the driver's answer to a call is
    delivered, and the continuations waiting for it are run, as soon as
    the call is made.  Where the code leaves two continuations in flight
    together (the two close-then-reject branches of [createCollection]
    after a reported index error) they are run one after the other; no
    statement below depends on how they interleave. *)

From Stdlib Require Import ZArith Ascii String.
From stdpp Require Import base option list strings.

(** ** JavaScript values *)

Module Js.

(** The values the connection layer handles: configuration fields, index
    specifications, driver results and errors.  Numbers are integers here
    (ports, write levels); an [VError] is an [Error] object together with
    the mark the promise library puts on errors a driver reported through
    its callback (an "operational" error). *)
#[warnings="-register-all"]
Inductive value : Type :=
  | VUndefined
  | VNull
  | VBool (b : bool)
  | VNum (n : Z)
  | VStr (s : string)
  | VObj (fields : list (string * value))
  | VArr (items : list value)
  | VError (operational : bool) (message : string).

(** JavaScript truthiness, as tested by [if (x)], [x ? a : b], [!x] and
    [x || y]. *)
Definition truthy (v : value) : bool :=
  match v with
  | VUndefined | VNull => false
  | VBool b => b
  | VNum n => negb (n =? 0)%Z
  | VStr s => negb (String.eqb s "")
  | VObj _ | VArr _ | VError _ _ => true
  end.

(** [a || b] *)
Definition or_else (a b : value) : value := if truthy a then a else b.

(** [c ? a : b] *)
Definition cond (c a b : value) : value := if truthy c then a else b.

(** What [.error] filters on: errors marked operational. *)
Definition is_operational (v : value) : bool :=
  match v with
  | VError op _ => op
  | _ => false
  end.

Fixpoint obj_get (fields : list (string * value)) (k : string) : value :=
  match fields with
  | [] => VUndefined
  | (k', v) :: rest => if String.eqb k' k then v else obj_get rest k
  end.

Definition digit_of (a : ascii) : option nat :=
  let n := nat_of_ascii a in
  if ((48 <=? n) && (n <=? 57))%nat then Some (n - 48)%nat else None.

Fixpoint parse_digits (acc : nat) (s : string) : option nat :=
  match s with
  | EmptyString => Some acc
  | String a rest =>
      match digit_of a with
      | Some d => parse_digits (10 * acc + d)%nat rest
      | None => None
      end
  end.

(** An array index key is a canonical decimal numeral. *)
Definition parse_index (k : string) : option nat :=
  match k with
  | EmptyString => None
  | String a rest =>
      if (nat_of_ascii a =? 48)%nat
      then match rest with EmptyString => Some 0%nat | _ => None end
      else parse_digits 0 k
  end.

Definition arr_get (items : list value) (k : string) : value :=
  if String.eqb k "length" then VNum (Z.of_nat (length items))
  else match parse_index k with
       | Some i => default VUndefined (items !! i)
       | None => VUndefined
       end.

(** Reading a data property [v.k].  [None] stands for the [TypeError] a
    read on [undefined] or [null] throws; a property that is absent reads
    as [undefined].  Only data properties are modelled: the code never
    reads a method off these values. *)
Definition get_prop (v : value) (k : string) : option value :=
  match v with
  | VUndefined | VNull => None
  | VObj fields => Some (obj_get fields k)
  | VArr items => Some (arr_get items k)
  | VStr s => Some (if String.eqb k "length" then VNum (Z.of_nat (String.length s)) else VUndefined)
  | VBool _ | VNum _ | VError _ _ => Some VUndefined
  end.

Definition type_error (what : string) : value :=
  VError false ("TypeError: Cannot read property '" +:+ what +:+ "' of undefined").

End Js.
Export Js.

(** ** Driver handles

    The two driver objects the constructor creates.  Their classes belong
    to the wrapped driver; the layer only ever reads back what it passed
    in ([database.serverConfig.options]). *)

(** Modelled from the spec: the driver's Server class is missing from the
    sources; "handle construction is purely in-memory object setup", so a
    handle is the record of its constructor arguments. *)
Record Server : Type := mkServer {
  server_host : value;
  server_port : value;
  server_options : value
}.

(** Modelled from the spec: the driver's Db class is missing from the
    sources; as for [Server], the handle keeps its constructor arguments,
    the server handle under [serverConfig]. *)
Record Db : Type := mkDb {
  databaseName : value;
  serverConfig : Server;
  db_options : value
}.

(** The object [new Connection(config)] returns. *)
Record Connection : Type := mkConnection {
  config : value;
  server : Server;
  database : Db
}.

(** ** Deferred results and the trace of a run *)

(** The eventual state of a promise. *)
Inductive outcome : Type :=
  | Pending
  | Fulfilled (v : value)
  | Rejected (reason : value).

(** What a run does that an observer can see: handles constructed, driver
    methods called (with the handle they are called on), deferred results
    settled through [resolve] and [reject], and the caller's callback
    invoked. *)
Inductive event : Type :=
  | NewServer (host port options : value)
  | NewDb (name : value) (srv : Server) (options : value)
  | PromisifyServer (srv : Server)
  | PromisifyDb (db : Db)
  | DbOpen (db : Db)
  | DbClose (db : Db)
  | DbAuthenticate (db : Db) (user password : value)
  | DbCreateCollection (db : Db) (name : value)
  | DbDropCollection (db : Db) (name : value)
  | EnsureIndex (collection : value) (index options : value)
  | Resolve (p : nat) (v : value)
  | Reject (p : nat) (reason : value)
  | Nodeback (err result : value).

(** The wrapped driver: what a call settles to, given everything that
    happened before it.  A call the driver never answers stays
    [Pending]; an error reported through the driver's callback is a
    rejection with an operational error, anything else it throws is a
    rejection with that value. *)
Definition driver : Type := list event -> event -> outcome.

Record world : Type := mkWorld {
  trace : list event;
  cells : list outcome
}.

Definition init : world := mkWorld [] [].

(** ** The monad of the embedding: state, and JavaScript [throw] *)

Inductive result (A : Type) : Type :=
  | Ok (a : A)
  | Throw (e : value).
Arguments Ok {A} a.
Arguments Throw {A} e.

Definition M (A : Type) : Type := world -> result A * world.

Definition ret {A} (a : A) : M A := fun w => (Ok a, w).

Definition bind {A B} (m : M A) (k : A -> M B) : M B :=
  fun w =>
    match m w with
    | (Ok a, w') => k a w'
    | (Throw e, w') => (Throw e, w')
    end.

Definition throw {A} (e : value) : M A := fun w => (Throw e, w).

Definition try_catch {A} (m : M A) (h : value -> M A) : M A :=
  fun w =>
    match m w with
    | (Ok a, w') => (Ok a, w')
    | (Throw e, w') => h e w'
    end.

Declare Scope js_scope.
Delimit Scope js_scope with js.
Notation "x ← y ; z" := (bind y (fun x => z))
  (at level 20, y at level 100, z at level 200, only parsing) : js_scope.
Notation "x ;; z" := (bind x (fun _ => z))
  (at level 100, z at level 200, only parsing, right associativity) : js_scope.
Local Open Scope js_scope.

Definition emit (e : event) : M unit :=
  fun w => (Ok tt, mkWorld (trace w ++ [e]) (cells w)).

(** [v.k], throwing on [undefined] and [null]. *)
Definition get (v : value) (k : string) : M value :=
  match get_prop v k with
  | Some x => ret x
  | None => throw (type_error k)
  end.

(** ** The promise library, on eventual outcomes

    A promise obtained from a driver call or from [.then]/[.error] is
    represented by the outcome it settles to; a promise made with
    [new Promise] is a cell of the world, settled by the first call of its
    [resolve] or [reject].  A continuation runs when the outcome it waits
    for is delivered, so one operation is followed from its call to the
    point where nothing is left to run. *)

Definition callback : Type := value -> value -> M unit.

(** A function passed to [.then] or [.error]: what it throws rejects the
    derived promise. *)
Definition handler (m : M outcome) : M outcome :=
  try_catch m (fun e => ret (Rejected e)).

(** [p.then(f)] *)
Definition then_ (p : outcome) (f : value -> M outcome) : M outcome :=
  match p with
  | Fulfilled v => handler (f v)
  | _ => ret p
  end.

(** [p.error(f)]: [f] sees operational errors only. *)
Definition error_ (p : outcome) (f : value -> M outcome) : M outcome :=
  match p with
  | Rejected e => if is_operational e then handler (f e) else ret p
  | _ => ret p
  end.

(** [Promise.all(xs)] on plain values: the array itself; anything that is
    not an array is refused. *)
Definition Promise_all (xs : value) : outcome :=
  match xs with
  | VArr items => Fulfilled (VArr items)
  | _ => Rejected (VError false "TypeError: expecting an array")
  end.

(** The error argument [nodeify] hands to the callback: the rejection
    reason, or, for a falsy reason, an [Error] made from it, so that the
    callback can tell a rejection from a success. *)
Definition nodeback_error (reason : value) : value :=
  if truthy reason then reason
  else VError false
         match reason with
         | VUndefined => "undefined"
         | VNull => "null"
         | VBool _ => "false"
         | VNum _ => "0"
         | _ => ""
         end.

(** [p.nodeify(cb)]: without a callback nothing happens; with one it is
    called as [cb(null, value)] or [cb(error)] once [p] settles. *)
Definition nodeify (p : outcome) (cb : option callback) : M unit :=
  match cb with
  | None => ret tt
  | Some f =>
      match p with
      | Fulfilled v => f VNull v
      | Rejected e => f (nodeback_error e) VUndefined
      | Pending => ret tt
      end
  end.

Definition alloc : M nat :=
  fun w => (Ok (length (cells w)), mkWorld (trace w) (cells w ++ [Pending])).

Definition settle (p : nat) (o : outcome) : M unit :=
  fun w =>
    (Ok tt,
     mkWorld (trace w)
       (match cells w !! p with
        | Some Pending => <[p := o]> (cells w)
        | _ => cells w
        end)).

Definition resolve (p : nat) (v : value) : M unit :=
  emit (Resolve p v) ;; settle p (Fulfilled v).

Definition reject (p : nat) (e : value) : M unit :=
  emit (Reject p e) ;; settle p (Rejected e).

(** The state of a [new Promise] cell. *)
Definition state (w : world) (p : nat) : outcome :=
  default Pending (cells w !! p).

Definition await (p : nat) : M outcome := fun w => (Ok (state w p), w).

(** [new Promise(function (resolve, reject) { ... })] *)
Definition new_promise (executor : nat -> M unit) : M nat :=
  p ← alloc;
  try_catch (executor p) (fun e => reject p e) ;;
  ret p.

(** The caller's completion callback: opaque, its invocation is recorded. *)
Definition caller_cb : callback := fun err v => emit (Nodeback err v).

Definition optional_cb (supplied : bool) : option callback :=
  if supplied then Some caller_cb else None.

(** ** The constructor *)

(** [Connection.prototype.buildConnection] *)
Definition buildConnection (config : value) : M (Server * Db) :=
  s ← get config "safe";
  let safe := cond s (VNum 1%Z) (VNum 0%Z) in
  np ← get config "nativeParser";
  user ← get config "user";
  password ← get config "password";
  let serverOptions :=
    VObj [("native_parser", np);
          ("auth", VObj [("user", user); ("password", password)])] in
  np' ← get config "nativeParser";
  let databaseOptions := VObj [("w", safe); ("native_parser", np')] in
  host ← get config "host";
  port ← get config "port";
  emit (NewServer host port serverOptions) ;;
  let srv := mkServer host port serverOptions in
  name ← get config "database";
  emit (NewDb name srv databaseOptions) ;;
  let db := mkDb name srv databaseOptions in
  emit (PromisifyServer srv) ;;
  emit (PromisifyDb db) ;;
  ret (srv, db).

(** [function Connection(config)]; [None] is a call without argument. *)
Definition new_Connection (arg : option value) : M Connection :=
  let config := or_else (default VUndefined arg) (VObj []) in
  handles ← buildConnection config;
  ret (mkConnection config (fst handles) (snd handles)).

(** ** The methods *)

Section Methods.

Variable d : driver.

(** A call of a driver method: recorded, and answered by the driver. *)
Definition call (e : event) : M outcome :=
  fun w => (Ok (d (trace w) e), mkWorld (trace w ++ [e]) (cells w)).

(** [Connection.prototype.close] *)
Definition close (self : Connection) (cb : option callback) : M outcome :=
  p ← call (DbClose (database self));
  nodeify p cb ;;
  ret p.

Definition could_not_authenticate : value :=
  VError false "Could not authenticate the User/Password combination provided.".

(** The callback [authenticate] hands to [close] when the driver refused
    the credentials. *)
Definition authenticate_failed (p : nat) (err : value) : callback :=
  fun _ _ =>
    if truthy err then reject p err
    else reject p could_not_authenticate.

(** [Connection.prototype.authenticate] *)
Definition authenticate (self : Connection) (cb : option callback) : M nat :=
  let options := server_options (serverConfig (database self)) in
  promise ←
    new_promise (fun p =>
      auth ← get options "auth";
      u ← get auth "user";
      anonymous ←
        (if truthy u then ret false
         else auth' ← get options "auth";
              pw ← get auth' "password";
              ret (negb (truthy pw)));
      if anonymous : bool then resolve p VUndefined
      else
        auth ← get options "auth";
        u ← get auth "user";
        let user := or_else u (VStr "") in
        auth' ← get options "auth";
        pw ← get auth' "password";
        let password := or_else pw (VStr "") in
        a ← call (DbAuthenticate (database self) user password);
        a' ← then_ a (fun success =>
                     resolve p VUndefined ;; ret (Fulfilled VUndefined));
        _ ← error_ a' (fun err =>
                     close self (Some (authenticate_failed p err)) ;;
                     ret (Fulfilled VUndefined));
        ret tt);
  s ← await promise;
  nodeify s cb ;;
  ret promise.

(** [Connection.prototype.open] *)
Definition open (self : Connection) (cb : option callback) : M nat :=
  promise ←
    new_promise (fun p =>
      o ← call (DbOpen (database self));
      o' ← then_ o (fun _ =>
                   q ← authenticate self cb; await q);
      _ ← error_ o' (fun err =>
                   reject p err ;; ret (Fulfilled VUndefined));
      ret tt);
  s ← await promise;
  nodeify s cb ;;
  ret promise.

(** [Connection.prototype.ensureIndexes] *)
Definition createIndex (collection item : value) : M outcome :=
  index ← get item "index";
  options ← get item "options";
  call (EnsureIndex collection index options).

Definition ensureIndexes (collection indexes : value) (cb : option callback)
  : M outcome :=
  promise ← then_ (Promise_all indexes) (createIndex collection);
  nodeify promise cb ;;
  ret promise.

(** [self.close().then(function() { reject(err); })], as written in both
    handlers of [createCollection] and in [dropCollection]. *)
Definition close_then_reject (self : Connection) (p : nat) (err : value)
  : M outcome :=
  c ← close self None;
  then_ c (fun _ => reject p err ;; ret (Fulfilled VUndefined)).

(** [Connection.prototype.createCollection] *)
Definition createCollection (self : Connection) (name collection : value)
    (cb : option callback) : M nat :=
  promise ←
    new_promise (fun p =>
      o ← call (DbOpen (database self));
      _ ← then_ o (fun _ =>
        c ← call (DbCreateCollection (database self) name);
        c' ← then_ c (fun result =>
          indexes ← get collection "indexes";
          ensureIndexes result indexes
            (Some (fun err _ => close_then_reject self p err ;; ret tt)));
        error_ c' (fun err => close_then_reject self p err));
      ret tt);
  s ← await promise;
  nodeify s cb ;;
  ret promise.

(** [Connection.prototype.dropCollection] *)
Definition dropCollection (self : Connection) (name : value)
    (cb : option callback) : M nat :=
  promise ←
    new_promise (fun p =>
      o ← call (DbOpen (database self));
      _ ← then_ o (fun _ =>
        r ← call (DbDropCollection (database self) name);
        then_ r (fun err => close_then_reject self p err));
      ret tt);
  s ← await promise;
  nodeify s cb ;;
  ret promise.

End Methods.

(** * Vocabulary of the statements *)

(** ** Construction *)

(** [v.k] for a value that can be read from. *)
Definition field (v : value) (k : string) : value :=
  default VUndefined (get_prop v k).

Definition built_server (cfg : value) : Server :=
  mkServer (field cfg "host") (field cfg "port")
    (VObj [("native_parser", field cfg "nativeParser");
           ("auth", VObj [("user", field cfg "user");
                          ("password", field cfg "password")])]).

Definition built_database (cfg : value) : Db :=
  mkDb (field cfg "database") (built_server cfg)
    (VObj [("w", if truthy (field cfg "safe") then VNum 1 else VNum 0);
           ("native_parser", field cfg "nativeParser")]).

(** What construction leaves in the trace: one server handle, one database
    handle, both wrapped for promise use, and no driver call. *)
Definition construction (self : Connection) : list event :=
  [NewServer (server_host (server self)) (server_port (server self))
     (server_options (server self));
   NewDb (databaseName (database self)) (server self)
     (db_options (database self));
   PromisifyServer (server self);
   PromisifyDb (database self)].

Definition stored_config (arg : option value) : value :=
  or_else (default VUndefined arg) (VObj []).

Definition constructed (arg : option value) : Connection :=
  let cfg := stored_config arg in
  mkConnection cfg (built_server cfg) (built_database cfg).

(** The credentials [authenticate] reads back from the server handle. *)
Definition credentials (self : Connection) : option (value * value) :=
  match get_prop (server_options (serverConfig (database self))) "auth" with
  | Some auth =>
      match get_prop auth "user", get_prop auth "password" with
      | Some u, Some pw => Some (u, pw)
      | _, _ => None
      end
  | None => None
  end.

(** ** Relations between the world before and after a run *)

(** A computation keeps [R] when every run relates the world before to
    the world after. *)
Definition respects (R : world -> world -> Prop) {A} (m : M A) : Prop :=
  forall w, R w (snd (m w)).

Definition respects_cb (R : world -> world -> Prop) (cb : option callback)
  : Prop :=
  forall f, cb = Some f -> forall err v, respects R (f err v).

(** The trace grows, by events that all satisfy [P]. *)
Definition extends (P : event -> Prop) (w w' : world) : Prop :=
  exists evs, trace w' = trace w ++ evs /\ Forall P evs.

(** No deferred result becomes fulfilled. *)
Definition no_new_fulfilment (w w' : world) : Prop :=
  forall q v, state w' q = Fulfilled v -> state w q = Fulfilled v.

(** An event that uses the handles of [self] and builds none. *)
Definition on_handles (self : Connection) (e : event) : Prop :=
  match e with
  | NewServer _ _ _ | NewDb _ _ _ | PromisifyServer _ | PromisifyDb _ => False
  | DbOpen db | DbClose db | DbAuthenticate db _ _
  | DbCreateCollection db _ | DbDropCollection db _ => db = database self
  | EnsureIndex _ _ _ | Resolve _ _ | Reject _ _ | Nodeback _ _ => True
  end.

(** A method reuses the handles of [self] when every event of its run is
    on those handles and none constructs a handle. *)
Definition reuses_handles (self : Connection) {A} (m : M A) : Prop :=
  respects (extends (on_handles self)) m.

(** ** The index batch as the specification words it

    "Applies each by invoking the driver's index-ensure operation with the
    spec's definition and options ... rejects if any index creation fails
    (fails fast)": the entries are applied in turn, each through
    [createIndex], and the first failure ends the batch.  This is the
    reading the code is compared with, not a model of the code. *)

Fixpoint apply_each (d : driver) (collection : value) (items : list value)
  : M outcome :=
  match items with
  | [] => ret (Fulfilled VUndefined)
  | item :: rest =>
      o ← handler (createIndex d collection item);
      match o with
      | Fulfilled _ => apply_each d collection rest
      | _ => ret o
      end
  end.

Definition ensureIndexes_specified (d : driver) (collection indexes : value)
    (cb : option callback) : M outcome :=
  promise ← match indexes with
            | VArr items => apply_each d collection items
            | _ => ret (Promise_all indexes)
            end;
  nodeify promise cb ;;
  ret promise.

(** ** Sample drivers and inputs *)

(** A driver that answers every call with success. *)
Definition driver_ok : driver :=
  fun _ e =>
    match e with
    | DbCreateCollection _ name => Fulfilled (VObj [("collectionName", name)])
    | EnsureIndex _ _ _ => Fulfilled (VStr "index_1")
    | _ => Fulfilled VUndefined
    end.

(** A driver that reports [err] for the calls selected by [bad]. *)
Definition driver_rejecting (bad : event -> bool) (err : value) : driver :=
  fun t e => if bad e then Rejected err else driver_ok t e.

Definition is_open (e : event) : bool :=
  match e with DbOpen _ => true | _ => false end.

Definition is_authenticate (e : event) : bool :=
  match e with DbAuthenticate _ _ _ => true | _ => false end.

Definition is_drop (e : event) : bool :=
  match e with DbDropCollection _ _ => true | _ => false end.

Definition local_config : value :=
  VObj [("host", VStr "localhost"); ("port", VNum 27017);
        ("database", VStr "sails"); ("safe", VBool true)].

Definition bob_config : value :=
  VObj [("host", VStr "localhost"); ("port", VNum 27017);
        ("database", VStr "sails"); ("user", VStr "bob")].

Definition secret_config : value :=
  VObj [("host", VStr "localhost"); ("port", VNum 27017);
        ("database", VStr "sails"); ("password", VStr "s3cret")].

Definition bob_secret_config : value :=
  VObj [("host", VStr "localhost"); ("port", VNum 27017);
        ("database", VStr "sails");
        ("user", VStr "bob"); ("password", VStr "s3cret")].

Definition auth_fails : value := VError true "auth fails".

Definition ns_not_found : value := VError true "ns not found".

Definition connection_refused : value :=
  VError true "connect ECONNREFUSED".

Definition users_handle : value := VObj [("collectionName", VStr "users")].

Definition no_indexes : value := VObj [("indexes", VArr [])].

Definition name_index : value :=
  VObj [("index", VObj [("name", VNum 1)]);
        ("options", VObj [("unique", VBool true)])].

Definition age_index : value :=
  VObj [("index", VObj [("age", VNum 1)]); ("options", VObj [])].

Definition users_spec : value :=
  VObj [("indexes", VArr [name_index; age_index])].

Definition local : Connection := constructed (Some local_config).

Definition bob_secret : Connection := constructed (Some bob_secret_config).

(** ** Reading a trace *)

Definition is_close (e : event) : bool :=
  match e with DbClose _ => true | _ => false end.

Definition is_create (e : event) : bool :=
  match e with DbCreateCollection _ _ => true | _ => false end.

Definition is_ensure (e : event) : bool :=
  match e with EnsureIndex _ _ _ => true | _ => false end.

Definition is_nodeback (e : event) : bool :=
  match e with Nodeback _ _ => true | _ => false end.

(** A call of a driver method, on the database handle or on a
    collection. *)
Definition is_driver_call (e : event) : bool :=
  match e with
  | DbOpen _ | DbClose _ | DbAuthenticate _ _ _
  | DbCreateCollection _ _ | DbDropCollection _ _ | EnsureIndex _ _ _ => true
  | _ => false
  end.

Definition count (f : event -> bool) (evs : list event) : nat :=
  length (List.filter f evs).

Definition none (f : event -> bool) (evs : list event) : bool :=
  forallb (fun e => negb (f e)) evs.

(** Every [reject] of the run comes after a call of the driver's close. *)
Fixpoint closed_before_reject (closed : bool) (evs : list event) : bool :=
  match evs with
  | [] => true
  | DbClose _ :: rest => closed_before_reject true rest
  | Reject _ _ :: rest => closed && closed_before_reject closed rest
  | _ :: rest => closed_before_reject closed rest
  end.

(** What [nodeify] adds to the trace for the caller's callback, supplied
    or not, once a promise has the outcome [o]. *)
Definition nodeback_events (supplied : bool) (o : outcome) : list event :=
  if supplied then
    match o with
    | Pending => []
    | Fulfilled x => [Nodeback VNull x]
    | Rejected e => [Nodeback (nodeback_error e) VUndefined]
    end
  else [].

(** ** More sample inputs *)


Definition collection_exists : value :=
  VError true "collection already exists".

(** An error thrown by the index call: not an operational one. *)
Definition index_failed : value := VError false "cannot create index".

(** * Verification *)

(** ** Running the primitives *)

Lemma settle_fresh t cs o rest :
  settle (length cs) o (mkWorld t (cs ++ Pending :: rest))
  = (Ok tt, mkWorld t (cs ++ o :: rest)).
Proof.
  unfold settle; cbn [cells trace].
  rewrite lookup_app_r, Nat.sub_diag by lia; cbn.
  do 2 f_equal.
  now rewrite insert_app_r_alt, Nat.sub_diag by lia.
Qed.

Lemma settle_next t cs a o rest :
  settle (S (length cs)) o (mkWorld t (cs ++ a :: Pending :: rest))
  = (Ok tt, mkWorld t (cs ++ a :: o :: rest)).
Proof.
  unfold settle; cbn [cells trace].
  rewrite lookup_app_r by lia.
  replace (S (length cs) - length cs)%nat with 1%nat by lia; cbn.
  do 2 f_equal.
  rewrite insert_app_r_alt by lia.
  now replace (S (length cs) - length cs)%nat with 1%nat by lia.
Qed.

Lemma state_fresh t cs o rest :
  state (mkWorld t (cs ++ o :: rest)) (length cs) = o.
Proof.
  unfold state; cbn [cells].
  now rewrite lookup_app_r, Nat.sub_diag by lia.
Qed.

Lemma state_next t cs a o rest :
  state (mkWorld t (cs ++ a :: o :: rest)) (S (length cs)) = o.
Proof.
  unfold state; cbn [cells]. rewrite lookup_app_r by lia.
  now replace (S (length cs) - length cs)%nat with 1%nat by lia.
Qed.

Lemma state_unallocated w : state w (length (cells w)) = Pending.
Proof.
  unfold state. now rewrite lookup_ge_None_2 by lia.
Qed.

(** An array has no [index] and no [options] property. *)
Lemma get_index_of_array items :
  get_prop (VArr items) "index" = Some VUndefined.
Proof. reflexivity. Qed.

Lemma get_options_of_array items :
  get_prop (VArr items) "options" = Some VUndefined.
Proof. reflexivity. Qed.

Lemma get_truthy v k : truthy v = true -> get v k = ret (field v k).
Proof.
  unfold get, field. now destruct v.
Qed.

Lemma operational_truthy e : is_operational e = true -> truthy e = true.
Proof. now destruct e. Qed.

(** Symbolic execution of a method body: unfold the monad and the promise
    combinators, then use what is known of the driver's answers. *)
Ltac js_unfold :=
  unfold bind, ret, throw, try_catch, handler, then_, error_, nodeify, call,
    emit, alloc, await, get, new_promise, reject, resolve, optional_cb,
    caller_cb, Promise_all, nodeback_error;
  cbn beta iota delta [trace cells fst snd negb].

Ltac js_known :=
  match goal with
  | H : ?d _ _ = _ |- context [?d _ _] => rewrite H
  | H : get_prop _ _ = _ |- _ => rewrite H
  | H : truthy _ = _ |- _ => rewrite H
  | H : is_operational _ = _ |- _ => rewrite H
  end.

Ltac js_run :=
  repeat (progress (
    js_unfold;
    rewrite <- ?app_assoc; cbn [app];
    rewrite ?length_app, ?Nat.add_1_r; cbn [length];
    rewrite ?settle_fresh, ?settle_next, ?state_fresh, ?state_next,
      ?get_index_of_array, ?get_options_of_array;
    try js_known)).

(** ** Construction *)

Lemma stored_config_truthy arg : truthy (stored_config arg) = true.
Proof.
  unfold stored_config, or_else.
  now destruct (truthy (default VUndefined arg)) eqn:E.
Qed.

Lemma buildConnection_run cfg w :
  truthy cfg = true ->
  buildConnection cfg w
  = (Ok (built_server cfg, built_database cfg),
     mkWorld (trace w ++ [NewServer (field cfg "host") (field cfg "port")
                            (server_options (built_server cfg));
                          NewDb (field cfg "database") (built_server cfg)
                            (db_options (built_database cfg));
                          PromisifyServer (built_server cfg);
                          PromisifyDb (built_database cfg)])
             (cells w)).
Proof.
  intros T. unfold buildConnection.
  rewrite !(get_truthy _ _ T).
  unfold bind, ret, emit, cond; cbn [trace cells].
  now rewrite <- !app_assoc.
Qed.

Lemma new_Connection_run arg w :
  new_Connection arg w
  = (Ok (constructed arg),
     mkWorld (trace w ++ construction (constructed arg)) (cells w)).
Proof.
  unfold new_Connection. fold (stored_config arg).
  unfold bind. rewrite buildConnection_run by apply stored_config_truthy.
  reflexivity.
Qed.

(** ** A relation kept by every step

    Many facts about a method say that each step of its run keeps some
    relation between the world before and the world after (the trace only
    grows by certain events; no deferred result becomes fulfilled).  For a
    reflexive and transitive relation this is proved once, by following
    the structure of the method. *)

Section Respects.

Variable R : world -> world -> Prop.
Hypothesis R_refl : forall w, R w w.
Hypothesis R_trans : forall a b c, R a b -> R b c -> R a c.

Lemma respects_ret {A} (a : A) : respects R (ret a).
Proof. intros w; apply R_refl. Qed.

Lemma respects_throw {A} e : respects R (@throw A e).
Proof. intros w; apply R_refl. Qed.

Lemma respects_bind {A B} (m : M A) (k : A -> M B) :
  respects R m -> (forall a, respects R (k a)) -> respects R (bind m k).
Proof.
  intros Hm Hk w. unfold bind.
  specialize (Hm w). destruct (m w) as [[a|e] w1]; cbn [snd] in *.
  - eapply R_trans; [exact Hm | apply Hk].
  - exact Hm.
Qed.

Lemma respects_try_catch {A} (m : M A) (h : value -> M A) :
  respects R m -> (forall e, respects R (h e)) -> respects R (try_catch m h).
Proof.
  intros Hm Hh w. unfold try_catch.
  specialize (Hm w). destruct (m w) as [[a|e] w1]; cbn [snd] in *.
  - exact Hm.
  - eapply R_trans; [exact Hm | apply Hh].
Qed.

Lemma respects_get v k : respects R (get v k).
Proof.
  unfold get. destruct (get_prop v k); [apply respects_ret | apply respects_throw].
Qed.

Lemma respects_await p : respects R (await p).
Proof. intros w; apply R_refl. Qed.

Lemma respects_handler m : respects R m -> respects R (handler m).
Proof.
  intros Hm. apply respects_try_catch; [exact Hm | intros; apply respects_ret].
Qed.

Lemma respects_then_ o f :
  (forall v, respects R (f v)) -> respects R (then_ o f).
Proof.
  intros Hf. destruct o; cbn; try apply respects_ret.
  apply respects_handler, Hf.
Qed.

Lemma respects_error_ o f :
  (forall e, respects R (f e)) -> respects R (error_ o f).
Proof.
  intros Hf. destruct o; cbn; try apply respects_ret.
  destruct (is_operational reason); [apply respects_handler, Hf | apply respects_ret].
Qed.

Lemma respects_nodeify o cb : respects_cb R cb -> respects R (nodeify o cb).
Proof.
  intros Hcb. destruct cb as [f|]; cbn; [|apply respects_ret].
  destruct o; [apply respects_ret | apply (Hcb f eq_refl) ..].
Qed.

(** The steps that touch the world. *)
Variable d : driver.
Variable allowed : event -> Prop.
Hypothesis R_call : forall e, allowed e -> respects R (call d e).
Hypothesis R_alloc : respects R alloc.
Hypothesis R_reject : forall p e, respects R (reject p e).
Hypothesis R_caller_cb : forall err v, respects R (caller_cb err v).

Lemma respects_optional_cb b : respects_cb R (optional_cb b).
Proof.
  intros f Hf err v. destruct b; [|discriminate].
  injection Hf as <-. apply R_caller_cb.
Qed.

Lemma respects_new_promise executor :
  (forall p, respects R (executor p)) -> respects R (new_promise executor).
Proof.
  intros He. unfold new_promise.
  apply respects_bind; [exact R_alloc | intros p].
  apply respects_bind; [| intros; apply respects_ret].
  apply respects_try_catch; [apply He | intros; apply R_reject].
Qed.

(** A promise made by a method, with the usual optional callback. *)
Lemma respects_method executor cb :
  (forall p, respects R (executor p)) -> respects_cb R cb ->
  respects R (promise ← new_promise executor;
            s ← await promise;
            nodeify s cb ;; ret promise).
Proof.
  intros He Hcb.
  apply respects_bind; [now apply respects_new_promise | intros p].
  apply respects_bind; [apply respects_await | intros s].
  apply respects_bind; [now apply respects_nodeify | intros; apply respects_ret].
Qed.

Section OnConnection.

Variable self : Connection.
Hypothesis allowed_open : allowed (DbOpen (database self)).
Hypothesis allowed_close : allowed (DbClose (database self)).
Hypothesis allowed_create :
  forall name, allowed (DbCreateCollection (database self) name).
Hypothesis allowed_drop :
  forall name, allowed (DbDropCollection (database self) name).
Hypothesis allowed_ensure : forall c i o, allowed (EnsureIndex c i o).

Lemma respects_close cb : respects_cb R cb -> respects R (close d self cb).
Proof.
  intros Hcb. unfold close.
  apply respects_bind; [now apply R_call | intros o].
  apply respects_bind; [now apply respects_nodeify | intros; apply respects_ret].
Qed.

Lemma respects_close_then_reject p err :
  respects R (close_then_reject d self p err).
Proof.
  unfold close_then_reject.
  apply respects_bind; [apply respects_close; intros f; discriminate | intros c].
  apply respects_then_; intros _.
  apply respects_bind; [apply R_reject | intros; apply respects_ret].
Qed.

Lemma respects_ensureIndexes collection indexes cb :
  respects_cb R cb -> respects R (ensureIndexes d collection indexes cb).
Proof.
  intros Hcb. unfold ensureIndexes.
  apply respects_bind; [| intros o].
  - apply respects_then_; intros item. unfold createIndex.
    apply respects_bind; [apply respects_get | intros i].
    apply respects_bind; [apply respects_get | intros o].
    now apply R_call.
  - apply respects_bind; [now apply respects_nodeify | intros; apply respects_ret].
Qed.

Lemma respects_createCollection name collection cb :
  respects_cb R cb -> respects R (createCollection d self name collection cb).
Proof.
  intros Hcb. unfold createCollection.
  apply respects_method; [intros p | exact Hcb].
  apply respects_bind; [now apply R_call | intros o].
  apply respects_bind; [| intros; apply respects_ret].
  apply respects_then_; intros _.
  apply respects_bind; [now apply R_call | intros c].
  apply respects_bind; [| intros c'].
  - apply respects_then_; intros result.
    apply respects_bind; [apply respects_get | intros indexes].
    apply respects_ensureIndexes.
    intros f Hf err v. injection Hf as <-.
    apply respects_bind; [apply respects_close_then_reject | intros; apply respects_ret].
  - apply respects_error_; intros err. apply respects_close_then_reject.
Qed.

Lemma respects_dropCollection name cb :
  respects_cb R cb -> respects R (dropCollection d self name cb).
Proof.
  intros Hcb. unfold dropCollection.
  apply respects_method; [intros p | exact Hcb].
  apply respects_bind; [now apply R_call | intros o].
  apply respects_bind; [| intros; apply respects_ret].
  apply respects_then_; intros _.
  apply respects_bind; [now apply R_call | intros r].
  apply respects_then_; intros err. apply respects_close_then_reject.
Qed.

(** [authenticate] and [open] are the only methods that resolve. *)
Hypothesis R_resolve : forall p v, respects R (resolve p v).
Hypothesis allowed_authenticate :
  forall u pw, allowed (DbAuthenticate (database self) u pw).

Lemma respects_authenticate cb :
  respects_cb R cb -> respects R (authenticate d self cb).
Proof.
  intros Hcb. unfold authenticate.
  apply respects_method; [intros p | exact Hcb].
  apply respects_bind; [apply respects_get | intros auth].
  apply respects_bind; [apply respects_get | intros u].
  apply respects_bind; [| intros anonymous].
  { destruct (truthy u); [apply respects_ret |].
    apply respects_bind; [apply respects_get | intros auth'].
    apply respects_bind; [apply respects_get | intros pw]. apply respects_ret. }
  destruct anonymous; [apply R_resolve |].
  apply respects_bind; [apply respects_get | intros auth1].
  apply respects_bind; [apply respects_get | intros u1].
  apply respects_bind; [apply respects_get | intros auth2].
  apply respects_bind; [apply respects_get | intros pw].
  apply respects_bind; [now apply R_call | intros a].
  apply respects_bind; [| intros a'].
  - apply respects_then_; intros _.
    apply respects_bind; [apply R_resolve | intros; apply respects_ret].
  - apply respects_bind; [| intros; apply respects_ret].
    apply respects_error_; intros err.
    apply respects_bind; [| intros; apply respects_ret].
    apply respects_close. intros f Hf e v. injection Hf as <-.
    unfold authenticate_failed. destruct (truthy err); apply R_reject.
Qed.

Lemma respects_open cb : respects_cb R cb -> respects R (open d self cb).
Proof.
  intros Hcb. unfold open.
  apply respects_method; [intros p | exact Hcb].
  apply respects_bind; [now apply R_call | intros o].
  apply respects_bind; [| intros o'].
  - apply respects_then_; intros _.
    apply respects_bind; [now apply respects_authenticate | intros q].
    apply respects_await.
  - apply respects_bind; [| intros; apply respects_ret].
    apply respects_error_; intros err.
    apply respects_bind; [apply R_reject | intros; apply respects_ret].
Qed.

End OnConnection.
End Respects.

(** ** Two instances *)

Lemma extends_refl P w : extends P w w.
Proof. exists []. now rewrite app_nil_r. Qed.

Lemma extends_trans P a b c : extends P a b -> extends P b c -> extends P a c.
Proof.
  intros (e1 & H1 & F1) (e2 & H2 & F2). exists (e1 ++ e2).
  split; [now rewrite H2, H1, app_assoc | now apply Forall_app].
Qed.

Lemma extends_emit P e : P e -> respects (extends P) (emit e).
Proof. intros He w. exists [e]. split; [reflexivity | now constructor]. Qed.

Lemma extends_call P d e : P e -> respects (extends P) (call d e).
Proof. intros He w. exists [e]. split; [reflexivity | now constructor]. Qed.

Lemma extends_alloc P : respects (extends P) alloc.
Proof. intros w. exists []. split; [cbn; now rewrite app_nil_r | constructor]. Qed.

Lemma extends_settle P p o : respects (extends P) (settle p o).
Proof. intros w. exists []. split; [cbn; now rewrite app_nil_r | constructor]. Qed.

Lemma extends_reject P p e : P (Reject p e) -> respects (extends P) (reject p e).
Proof.
  intros He. apply respects_bind.
  - apply extends_trans.
  - now apply extends_emit.
  - intros _. apply extends_settle.
Qed.

Lemma extends_resolve P p v :
  P (Resolve p v) -> respects (extends P) (resolve p v).
Proof.
  intros He. apply respects_bind.
  - apply extends_trans.
  - now apply extends_emit.
  - intros _. apply extends_settle.
Qed.

Lemma no_new_fulfilment_refl w : no_new_fulfilment w w.
Proof. now intros q v. Qed.

Lemma no_new_fulfilment_trans a b c :
  no_new_fulfilment a b -> no_new_fulfilment b c -> no_new_fulfilment a c.
Proof. intros H1 H2 q v H. now apply H1, H2. Qed.

Lemma no_new_fulfilment_same_cells w w' :
  cells w' = cells w -> no_new_fulfilment w w'.
Proof. intros E q v. unfold state. now rewrite E. Qed.

Lemma no_new_fulfilment_alloc : respects no_new_fulfilment alloc.
Proof.
  intros w q v. unfold state; cbn [alloc snd cells].
  destruct (decide (q < length (cells w))%nat) as [Hlt|Hge].
  - now rewrite lookup_app_l.
  - rewrite lookup_app_r by lia.
    now destruct (q - length (cells w))%nat as [|[|n]].
Qed.

Lemma no_new_fulfilment_settle_rejected p e :
  respects no_new_fulfilment (settle p (Rejected e)).
Proof.
  intros w q v. unfold state, settle; cbn [snd cells].
  destruct (cells w !! p) as [[| |]|] eqn:Hp; try easy.
  destruct (decide (p = q)) as [->|Hne].
  - rewrite list_lookup_insert_eq by (apply lookup_lt_Some in Hp; lia).
    discriminate.
  - now rewrite list_lookup_insert_ne.
Qed.

Lemma no_new_fulfilment_reject p e : respects no_new_fulfilment (reject p e).
Proof.
  apply respects_bind.
  - apply no_new_fulfilment_trans.
  - intros w. now apply no_new_fulfilment_same_cells.
  - intros _. apply no_new_fulfilment_settle_rejected.
Qed.

Lemma no_new_fulfilment_call d e : respects no_new_fulfilment (call d e).
Proof. intros w. now apply no_new_fulfilment_same_cells. Qed.

Lemma no_new_fulfilment_caller_cb err v :
  respects no_new_fulfilment (caller_cb err v).
Proof. intros w. now apply no_new_fulfilment_same_cells. Qed.

(** [createCollection] and [dropCollection] never fulfil a deferred
    result: neither calls [resolve]. *)
Lemma createCollection_no_new_fulfilment d self name collection b :
  respects no_new_fulfilment
    (createCollection d self name collection (optional_cb b)).
Proof.
  apply (respects_createCollection no_new_fulfilment
           no_new_fulfilment_refl no_new_fulfilment_trans d (fun _ => True));
    try (intros; exact I).
  - intros e _. apply no_new_fulfilment_call.
  - apply no_new_fulfilment_alloc.
  - apply no_new_fulfilment_reject.
  - eapply respects_optional_cb, no_new_fulfilment_caller_cb.
Qed.

Lemma dropCollection_no_new_fulfilment d self name b :
  respects no_new_fulfilment (dropCollection d self name (optional_cb b)).
Proof.
  apply (respects_dropCollection no_new_fulfilment
           no_new_fulfilment_refl no_new_fulfilment_trans d (fun _ => True));
    try (intros; exact I).
  - intros e _. apply no_new_fulfilment_call.
  - apply no_new_fulfilment_alloc.
  - apply no_new_fulfilment_reject.
  - eapply respects_optional_cb, no_new_fulfilment_caller_cb.
Qed.

(** ** Handles: built once, then reused *)

Ltac reuse_with lemma self :=
  unfold reuses_handles;
  apply lemma with (allowed := on_handles self);
  first
    [ apply extends_refl
    | apply extends_trans
    | apply extends_alloc
    | intros; apply extends_call; assumption
    | intros; apply extends_reject; exact I
    | intros; apply extends_resolve; exact I
    | eapply respects_optional_cb; intros; apply extends_emit; exact I
    | intros; reflexivity
    | intros; exact I ].

Lemma open_reuses_handles d self b :
  reuses_handles self (open d self (optional_cb b)).
Proof. reuse_with respects_open self. Qed.

Lemma close_reuses_handles d self b :
  reuses_handles self (close d self (optional_cb b)).
Proof. reuse_with respects_close self. Qed.

Lemma authenticate_reuses_handles d self b :
  reuses_handles self (authenticate d self (optional_cb b)).
Proof. reuse_with respects_authenticate self. Qed.

Lemma createCollection_reuses_handles d self name collection b :
  reuses_handles self (createCollection d self name collection (optional_cb b)).
Proof. reuse_with respects_createCollection self. Qed.

Lemma dropCollection_reuses_handles d self name b :
  reuses_handles self (dropCollection d self name (optional_cb b)).
Proof. reuse_with respects_dropCollection self. Qed.

Lemma ensureIndexes_reuses_handles d self collection indexes b :
  reuses_handles self (ensureIndexes d collection indexes (optional_cb b)).
Proof. reuse_with respects_ensureIndexes self. Qed.

(** C8. The server handle and the database handle are created exactly
    once, by the constructor: its run adds to the trace one [NewServer],
    one [NewDb] on that server, their wrapping for promise use, and no
    driver call, so construction does no network I/O; the database
    handle's [w] option is 1 when the [safe] flag is truthy and 0
    otherwise, in particular 1 for [true] and 0 for [false].  Every later
    operation ([open], [close], [authenticate], [createCollection],
    [dropCollection], [ensureIndexes]) only issues calls on the database
    handle of the instance and constructs no handle. *)
Theorem handles_built_once_and_reused :
  (forall arg w,
      let self := constructed arg in
      new_Connection arg w
      = (Ok self,
         mkWorld (trace w ++ [NewServer (server_host (server self))
                                (server_port (server self))
                                (server_options (server self));
                              NewDb (databaseName (database self)) (server self)
                                (db_options (database self));
                              PromisifyServer (server self);
                              PromisifyDb (database self)])
                 (cells w))
      /\ serverConfig (database self) = server self
      /\ get_prop (db_options (database self)) "w"
         = Some (if truthy (field (config self) "safe")
                 then VNum 1 else VNum 0))
  /\ (forall (safe : bool) rest,
         get_prop
           (db_options (database
              (constructed (Some (VObj (("safe", VBool safe) :: rest))))))
           "w"
         = Some (VNum (if safe then 1 else 0)))
  /\ (forall d self b name collection handle indexes,
         reuses_handles self (open d self (optional_cb b))
         /\ reuses_handles self (close d self (optional_cb b))
         /\ reuses_handles self (authenticate d self (optional_cb b))
         /\ reuses_handles self
              (createCollection d self name collection (optional_cb b))
         /\ reuses_handles self (dropCollection d self name (optional_cb b))
         /\ reuses_handles self
              (ensureIndexes d handle indexes (optional_cb b))).
Proof.
  split; [|split].
  - intros arg w self. split; [apply new_Connection_run | split; reflexivity].
  - intros [|] rest; reflexivity.
  - intros. repeat split.
    + apply open_reuses_handles.
    + apply close_reuses_handles.
    + apply authenticate_reuses_handles.
    + apply createCollection_reuses_handles.
    + apply dropCollection_reuses_handles.
    + apply ensureIndexes_reuses_handles.
Qed.


(** ** Authentication *)

Lemma credentials_constructed arg :
  credentials (constructed arg)
  = Some (field (stored_config arg) "user",
          field (stored_config arg) "password").
Proof. reflexivity. Qed.

Lemma credentials_inv self u pw :
  credentials self = Some (u, pw) ->
  exists auth,
    get_prop (server_options (serverConfig (database self))) "auth" = Some auth
    /\ get_prop auth "user" = Some u
    /\ get_prop auth "password" = Some pw.
Proof.
  unfold credentials.
  destruct (get_prop _ "auth") as [auth|]; [|discriminate].
  destruct (get_prop auth "user") as [u'|] eqn:Hu; [|discriminate].
  destruct (get_prop auth "password") as [pw'|] eqn:Hp; [|discriminate].
  intros [= <- <-]. now exists auth.
Qed.

(** Case analysis on whatever the driver answers next. *)
Ltac js_cases :=
  repeat first
    [ progress js_run
    | match goal with
      | |- context [match ?d ?t ?e with _ => _ end] =>
          match type of d with driver => destruct (d t e) eqn:? end
      | |- context [if is_operational ?x then _ else _] =>
          destruct (is_operational x) eqn:?
      | |- context [if truthy ?x then _ else _] =>
          destruct (truthy x) eqn:?
      end ].

Lemma authenticate_anonymous d self b w u pw :
  credentials self = Some (u, pw) ->
  truthy u = false -> truthy pw = false ->
  authenticate d self (optional_cb b) w
  = (Ok (length (cells w)),
     mkWorld (trace w ++ Resolve (length (cells w)) VUndefined
                         :: (if b then [Nodeback VNull VUndefined] else []))
             (cells w ++ [Fulfilled VUndefined])).
Proof.
  intros (auth & Ha & Hu & Hp)%credentials_inv Tu Tp.
  destruct w as [t cs]. unfold authenticate. js_run.
  destruct b; js_run; reflexivity.
Qed.

Lemma authenticate_calls_driver d self b w u pw :
  credentials self = Some (u, pw) ->
  truthy u || truthy pw = true ->
  exists rest,
    trace (snd (authenticate d self (optional_cb b) w))
    = trace w ++ DbAuthenticate (database self)
                   (or_else u (VStr "")) (or_else pw (VStr "")) :: rest.
Proof.
  intros (auth & Ha & Hu & Hp)%credentials_inv T.
  destruct w as [t cs]. unfold authenticate, close, authenticate_failed, or_else.
  destruct (truthy u) eqn:Tu; destruct (truthy pw) eqn:Tp; try discriminate;
    js_cases; destruct b; js_cases; eexists; reflexivity.
Qed.

(** C7. On an instance built by the constructor from a configuration in
    which neither [user] nor [password] is set (both falsy),
    [authenticate] issues no driver call at all: it resolves its result
    at once, with [undefined].  When exactly one of the two is set, the
    driver's authentication call is still made, with the empty string in
    place of the missing one. *)
Theorem authenticate_anonymous_or_partial :
  forall d arg w0 self w1 b w,
    new_Connection arg w0 = (Ok self, w1) ->
    let u := field (config self) "user" in
    let pw := field (config self) "password" in
    let p := length (cells w) in
    let run := authenticate d self (optional_cb b) w in
    (truthy u = false -> truthy pw = false ->
       fst run = Ok p
       /\ state (snd run) p = Fulfilled VUndefined
       /\ trace (snd run)
          = trace w ++ Resolve p VUndefined
                    :: (if b then [Nodeback VNull VUndefined] else []))
    /\ (truthy u = true -> truthy pw = false ->
        exists rest,
          trace (snd run)
          = trace w ++ DbAuthenticate (database self) u (VStr "") :: rest)
    /\ (truthy u = false -> truthy pw = true ->
        exists rest,
          trace (snd run)
          = trace w ++ DbAuthenticate (database self) (VStr "") pw :: rest).
Proof.
  intros d arg w0 self w1 b w Hnew u pw p run.
  rewrite new_Connection_run in Hnew. injection Hnew as <- _.
  pose proof (credentials_constructed arg) as Hc.
  change (credentials (constructed arg) = Some (u, pw)) in Hc.
  repeat split.
  - subst run. now rewrite (authenticate_anonymous _ _ _ _ _ _ Hc).
  - subst run. rewrite (authenticate_anonymous _ _ _ _ _ _ Hc) by assumption.
    cbn [snd]. apply state_fresh.
  - subst run. now rewrite (authenticate_anonymous _ _ _ _ _ _ Hc).
  - intros Tu Tp.
    destruct (authenticate_calls_driver d _ b w u pw Hc) as [rest Hr].
    { now rewrite Tu. }
    exists rest. subst run. rewrite Hr. unfold or_else. now rewrite Tu, Tp.
  - intros Tu Tp.
    destruct (authenticate_calls_driver d _ b w u pw Hc) as [rest Hr].
    { now rewrite Tu, Tp. }
    exists rest. subst run. rewrite Hr. unfold or_else. now rewrite Tu, Tp.
Qed.

Lemma authenticate_anonymous_or_partial_witness :
  (state (snd (authenticate driver_ok (constructed (Some local_config))
                 (optional_cb false) init)) 0
   = Fulfilled VUndefined
   /\ trace (snd (authenticate driver_ok (constructed (Some local_config))
                    (optional_cb false) init))
      = [Resolve 0 VUndefined])
  /\ (exists rest,
        trace (snd (authenticate driver_ok (constructed (Some bob_config))
                      (optional_cb false) init))
        = DbAuthenticate (database (constructed (Some bob_config)))
            (VStr "bob") (VStr "") :: rest)
  /\ (exists rest,
        trace (snd (authenticate driver_ok (constructed (Some secret_config))
                      (optional_cb false) init))
        = DbAuthenticate (database (constructed (Some secret_config)))
            (VStr "") (VStr "s3cret") :: rest).
Proof.
  split; [| split].
  - pose proof (authenticate_anonymous_or_partial driver_ok
                  (Some local_config) init _ _ false init
                  (new_Connection_run _ _)) as (H & _ & _).
    destruct (H eq_refl eq_refl) as (_ & Hs & Ht). split; [exact Hs | exact Ht].
  - pose proof (authenticate_anonymous_or_partial driver_ok
                  (Some bob_config) init _ _ false init
                  (new_Connection_run _ _)) as (_ & H & _).
    exact (H eq_refl eq_refl).
  - pose proof (authenticate_anonymous_or_partial driver_ok
                  (Some secret_config) init _ _ false init
                  (new_Connection_run _ _)) as (_ & _ & H).
    exact (H eq_refl eq_refl).
Defined.



(** ** Creating a collection *)

Lemma createCollection_never_fulfils d self name collection b w v :
  state (snd (createCollection d self name collection (optional_cb b) w))
        (length (cells w))
  <> Fulfilled v.
Proof.
  intros H.
  apply (createCollection_no_new_fulfilment d self name collection b w) in H.
  now rewrite state_unallocated in H.
Qed.

Lemma dropCollection_never_fulfils d self name b w v :
  state (snd (dropCollection d self name (optional_cb b) w)) (length (cells w))
  <> Fulfilled v.
Proof.
  intros H.
  apply (dropCollection_no_new_fulfilment d self name b w) in H.
  now rewrite state_unallocated in H.
Qed.

(** C9. When the driver's open, collection creation and index creation
    all succeed, the callback [createCollection] gave to [ensureIndexes]
    is still called, by [nodeify], with [null] as its error: the driver's
    close is called and, once it has succeeded, the result is rejected
    with [null].  Whatever the input, the result of [createCollection] is
    never fulfilled. *)
Theorem createCollection_success_rejects_null :
  forall d self name collection items b w v r i c,
    let db := database self in
    let p := length (cells w) in
    let run := createCollection d self name collection (optional_cb b) w in
    d (trace w) (DbOpen db) = Fulfilled v ->
    d (trace w ++ [DbOpen db]) (DbCreateCollection db name) = Fulfilled r ->
    get_prop collection "indexes" = Some (VArr items) ->
    d (trace w ++ [DbOpen db; DbCreateCollection db name])
      (EnsureIndex r VUndefined VUndefined) = Fulfilled i ->
    d (trace w ++ [DbOpen db; DbCreateCollection db name;
                   EnsureIndex r VUndefined VUndefined])
      (DbClose db) = Fulfilled c ->
    (forall f x, nodeify (Fulfilled x) (Some f) = f VNull x)
    /\ fst run = Ok p
    /\ trace (snd run)
       = trace w ++ [DbOpen db; DbCreateCollection db name;
                     EnsureIndex r VUndefined VUndefined;
                     DbClose db; Reject p VNull]
                 ++ (if b then [Nodeback (nodeback_error VNull) VUndefined]
                     else [])
    /\ state (snd run) p = Rejected VNull
    /\ (forall d' self' name' collection' b' w' v',
          state (snd (createCollection d' self' name' collection'
                        (optional_cb b') w'))
                (length (cells w'))
          <> Fulfilled v').
Proof.
  intros d self name collection items b w v r i c db p run H1 H2 H3 H4 H5.
  assert (Hrun : run
                 = (Ok p,
                    mkWorld (trace w ++ [DbOpen db; DbCreateCollection db name;
                                         EnsureIndex r VUndefined VUndefined;
                                         DbClose db; Reject p VNull]
                               ++ (if b
                                   then [Nodeback (nodeback_error VNull)
                                           VUndefined]
                                   else []))
                            (cells w ++ [Rejected VNull]))).
  { subst run p db. destruct w as [t cs]. cbn [trace cells] in *.
    unfold createCollection, ensureIndexes, createIndex, close_then_reject,
      close.
    js_run. destruct b; js_run; reflexivity. }
  rewrite Hrun; cbn [fst snd trace]. repeat split.
  - apply state_fresh.
  - intros. apply createCollection_never_fulfils.
Qed.

Lemma createCollection_success_rejects_null_witness :
  trace (snd (createCollection driver_ok local (VStr "users") users_spec
                (optional_cb false) init))
  = [DbOpen (database local);
     DbCreateCollection (database local) (VStr "users");
     EnsureIndex (VObj [("collectionName", VStr "users")]) VUndefined VUndefined;
     DbClose (database local);
     Reject 0 VNull]
  /\ state (snd (createCollection driver_ok local (VStr "users") users_spec
                   (optional_cb false) init)) 0
     = Rejected VNull.
Proof.
  destruct (createCollection_success_rejects_null driver_ok local
              (VStr "users") users_spec [name_index; age_index] false init
              VUndefined (VObj [("collectionName", VStr "users")])
              (VStr "index_1") VUndefined
              eq_refl eq_refl eq_refl eq_refl eq_refl)
    as (_ & _ & Ht & Hs & _).
  split; [exact Ht | exact Hs].
Defined.

(** ** Where the code departs from its contract *)

(** [ensureIndexes] hands the whole array to [createIndex]: whatever the
    list of specifications, the driver's index-ensure call is made once,
    with [undefined] for both the definition and the options. *)
Lemma ensureIndexes_single_call d collection items b w :
  let o := d (trace w) (EnsureIndex collection VUndefined VUndefined) in
  ensureIndexes d collection (VArr items) (optional_cb b) w
  = (Ok o,
     mkWorld (trace w ++ EnsureIndex collection VUndefined VUndefined
                :: (if b then
                      match o with
                      | Pending => []
                      | Fulfilled x => [Nodeback VNull x]
                      | Rejected e => [Nodeback (nodeback_error e) VUndefined]
                      end
                    else []))
             (cells w)).
Proof.
  destruct w as [t cs]. unfold ensureIndexes, createIndex. cbn [trace cells].
  js_run.
  destruct (d t (EnsureIndex collection VUndefined VUndefined)) eqn:E;
    destruct b; js_run; reflexivity.
Qed.

(** C1. With two index specifications, each with its own definition and
    options, and a driver that accepts everything, [ensureIndexes] makes a
    single index-ensure call, and that call carries neither of the two
    definitions nor their options: both arguments are [undefined].  The
    batch as specified makes one call per entry, with that entry's
    definition and options. *)
Theorem ensureIndexes_two_specs_one_undefined_call :
  ensureIndexes driver_ok users_handle (VArr [name_index; age_index])
    (optional_cb false) init
  = (Ok (Fulfilled (VStr "index_1")),
     mkWorld [EnsureIndex users_handle VUndefined VUndefined] [])
  /\ trace (snd (ensureIndexes_specified driver_ok users_handle
                   (VArr [name_index; age_index]) (optional_cb false) init))
     = [EnsureIndex users_handle
          (VObj [("name", VNum 1)]) (VObj [("unique", VBool true)]);
        EnsureIndex users_handle (VObj [("age", VNum 1)]) (VObj [])].
Proof. split; reflexivity. Qed.

(** When the driver's open succeeds and authentication succeeds (or is
    not needed), [open] leaves its own result pending: only the inner
    result of [authenticate] is resolved. *)
Lemma open_success_stays_pending d self b w u pw v :
  credentials self = Some (u, pw) ->
  d (trace w) (DbOpen (database self)) = Fulfilled v ->
  (truthy u = false /\ truthy pw = false)
  \/ (truthy u || truthy pw = true
      /\ exists x,
          d (trace w ++ [DbOpen (database self)])
            (DbAuthenticate (database self)
               (or_else u (VStr "")) (or_else pw (VStr "")))
          = Fulfilled x) ->
  state (snd (open d self (optional_cb b) w)) (length (cells w)) = Pending
  /\ state (snd (open d self (optional_cb b) w)) (S (length (cells w)))
     = Fulfilled VUndefined.
Proof.
  intros (auth & Ha & Hu & Hp)%credentials_inv Hopen Hcase.
  destruct w as [t cs]. cbn [trace cells] in *.
  unfold open, authenticate.
  destruct Hcase as [[Tu Tp] | [T [x Hx]]].
  - js_run. destruct b; js_run; now split.
  - unfold or_else in *.
    destruct (truthy u) eqn:Tu; destruct (truthy pw) eqn:Tp; try discriminate;
      js_run; destruct b; js_run; now split.
Qed.

(** The failure half of [open] does hold: an error the driver reports for
    the open call rejects the result with that error. *)
Lemma open_error_rejected d self b w e :
  d (trace w) (DbOpen (database self)) = Rejected e ->
  is_operational e = true ->
  open d self (optional_cb b) w
  = (Ok (length (cells w)),
     mkWorld (trace w ++ [DbOpen (database self); Reject (length (cells w)) e]
                ++ (if b then [Nodeback e VUndefined] else []))
             (cells w ++ [Rejected e])).
Proof.
  intros H Hop. pose proof (operational_truthy e Hop) as Te.
  destruct w as [t cs]. cbn [trace cells] in *.
  unfold open. js_run. destruct b; js_run; reflexivity.
Qed.

(** So does an error the driver reports for the authentication call:
    [authenticate] closes and rejects its own result, and [open] passes
    the rejection on (the callback, given to both, is called twice). *)
Lemma open_authentication_error_rejected d self b w u pw v e c :
  let db := database self in
  let attempt :=
    DbAuthenticate db (or_else u (VStr "")) (or_else pw (VStr "")) in
  let p := length (cells w) in
  credentials self = Some (u, pw) ->
  truthy u || truthy pw = true ->
  d (trace w) (DbOpen db) = Fulfilled v ->
  d (trace w ++ [DbOpen db]) attempt = Rejected e ->
  is_operational e = true ->
  d (trace w ++ [DbOpen db; attempt]) (DbClose db) = Fulfilled c ->
  open d self (optional_cb b) w
  = (Ok p,
     mkWorld (trace w ++ [DbOpen db; attempt; DbClose db; Reject (S p) e]
                ++ (if b then [Nodeback e VUndefined] else [])
                ++ [Reject p e]
                ++ (if b then [Nodeback e VUndefined] else []))
             (cells w ++ [Rejected e; Rejected e])).
Proof.
  intros db attempt p (auth & Ha & Hu & Hp)%credentials_inv T H1 H2 Hop H3.
  pose proof (operational_truthy e Hop) as Te.
  subst db attempt p. destruct w as [t cs]. cbn [trace cells] in *.
  unfold open, authenticate, close, authenticate_failed, or_else in *.
  destruct (truthy u) eqn:Tu; destruct (truthy pw) eqn:Tp; try discriminate;
    js_run; destruct b; js_run; reflexivity.
Qed.

(** C2. On an instance without credentials and a driver whose open
    succeeds, [open] resolves only the inner result of [authenticate]
    (cell 1); its own result (cell 0) stays pending.  The same happens
    with credentials the driver accepts. *)
Theorem open_success_leaves_result_pending :
  open driver_ok local (optional_cb false) init
  = (Ok 0%nat,
     mkWorld [DbOpen (database local); Resolve 1 VUndefined]
             [Pending; Fulfilled VUndefined])
  /\ open driver_ok bob_secret (optional_cb false) init
     = (Ok 0%nat,
        mkWorld [DbOpen (database bob_secret);
                 DbAuthenticate (database bob_secret)
                   (VStr "bob") (VStr "s3cret");
                 Resolve 1 VUndefined]
                [Pending; Fulfilled VUndefined]).
Proof. split; reflexivity. Qed.


Lemma dropCollection_error_unhandled d self name b w v e :
  let db := database self in
  d (trace w) (DbOpen db) = Fulfilled v ->
  d (trace w ++ [DbOpen db]) (DbDropCollection db name) = Rejected e ->
  dropCollection d self name (optional_cb b) w
  = (Ok (length (cells w)),
     mkWorld (trace w ++ [DbOpen db; DbDropCollection db name])
             (cells w ++ [Pending])).
Proof.
  intros db H1 H2. subst db. destruct w as [t cs]. cbn [trace cells] in *.
  unfold dropCollection, close_then_reject, close.
  js_run. destruct b; js_run; reflexivity.
Qed.

(** C3. Dropping a collection the database does not have: the driver's
    open succeeds, its drop call reports "ns not found".  The run ends
    after the drop call: the connection is not closed, the result is not
    rejected (it stays pending) and the caller's callback is not
    called. *)
Theorem dropCollection_driver_error_not_closed_not_rejected :
  dropCollection (driver_rejecting is_drop ns_not_found) local
    (VStr "missing") (optional_cb true) init
  = (Ok 0%nat,
     mkWorld [DbOpen (database local);
              DbDropCollection (database local) (VStr "missing")]
             [Pending]).
Proof. reflexivity. Qed.

(** A failure of the driver's open inside [createCollection] or
    [dropCollection] reaches no handler. *)
Lemma open_failure_unhandled d self name collection b w e :
  d (trace w) (DbOpen (database self)) = Rejected e ->
  createCollection d self name collection (optional_cb b) w
  = (Ok (length (cells w)),
     mkWorld (trace w ++ [DbOpen (database self)]) (cells w ++ [Pending]))
  /\ dropCollection d self name (optional_cb b) w
     = (Ok (length (cells w)),
        mkWorld (trace w ++ [DbOpen (database self)]) (cells w ++ [Pending])).
Proof.
  intros H. destruct w as [t cs]. cbn [trace cells] in *.
  unfold createCollection, dropCollection.
  split; js_run; destruct b; js_run; reflexivity.
Qed.

(** An error the driver reports for the creation call is handled: the
    connection is closed, then the result is rejected with the error. *)
Lemma createCollection_create_error_rejected d self name collection b w v e c :
  let db := database self in
  let p := length (cells w) in
  d (trace w) (DbOpen db) = Fulfilled v ->
  d (trace w ++ [DbOpen db]) (DbCreateCollection db name) = Rejected e ->
  is_operational e = true ->
  d (trace w ++ [DbOpen db; DbCreateCollection db name]) (DbClose db)
  = Fulfilled c ->
  createCollection d self name collection (optional_cb b) w
  = (Ok p,
     mkWorld (trace w ++ [DbOpen db; DbCreateCollection db name; DbClose db;
                          Reject p e]
                ++ (if b then [Nodeback e VUndefined] else []))
             (cells w ++ [Rejected e])).
Proof.
  intros db p H1 H2 Hop H3. pose proof (operational_truthy e Hop) as Te.
  subst db p. destruct w as [t cs]. cbn [trace cells] in *.
  unfold createCollection, close_then_reject, close.
  js_run. destruct b; js_run; reflexivity.
Qed.

(** C4. The server refuses the connection: the driver's open reports an
    error inside [createCollection] and inside [dropCollection].  In both
    the run ends there: the result is never rejected (it stays pending)
    and the caller's callback, although supplied, is never called. *)
Theorem open_failure_in_create_and_drop_is_swallowed :
  createCollection (driver_rejecting is_open connection_refused) local
    (VStr "users") users_spec (optional_cb true) init
  = (Ok 0%nat, mkWorld [DbOpen (database local)] [Pending])
  /\ dropCollection (driver_rejecting is_open connection_refused) local
       (VStr "users") (optional_cb true) init
     = (Ok 0%nat, mkWorld [DbOpen (database local)] [Pending]).
Proof. split; reflexivity. Qed.

(** C5. Creating a collection without indexes on a driver that accepts
    everything: after the index step has succeeded the connection is
    closed and the result is rejected, with [null], so the caller does
    observe a rejection on the successful path. *)
Theorem createCollection_success_path_rejects :
  createCollection driver_ok local (VStr "users") no_indexes
    (optional_cb false) init
  = (Ok 0%nat,
     mkWorld [DbOpen (database local);
              DbCreateCollection (database local) (VStr "users");
              EnsureIndex users_handle VUndefined VUndefined;
              DbClose (database local);
              Reject 0 VNull]
             [Rejected VNull]).
Proof. reflexivity. Qed.

(** * Further properties of the methods *)

(** ** Following every path of a method *)

Lemma settle_on_rejected t cs e o rest :
  settle (length cs) o (mkWorld t (cs ++ Rejected e :: rest))
  = (Ok tt, mkWorld t (cs ++ Rejected e :: rest)).
Proof.
  unfold settle; cbn [cells trace].
  now rewrite lookup_app_r, Nat.sub_diag by lia.
Qed.

Lemma settle_on_fulfilled t cs v o rest :
  settle (length cs) o (mkWorld t (cs ++ Fulfilled v :: rest))
  = (Ok tt, mkWorld t (cs ++ Fulfilled v :: rest)).
Proof.
  unfold settle; cbn [cells trace].
  now rewrite lookup_app_r, Nat.sub_diag by lia.
Qed.

(** Case analysis on everything a run can depend on: the driver's
    answers, the shape of the arguments, the presence of a callback. *)
Ltac js_explore :=
  repeat first
    [ progress js_run
    | progress rewrite ?settle_on_rejected, ?settle_on_fulfilled
    | progress (unfold or_else; cbn [is_operational truthy])
    | match goal with
      | |- context [match ?d ?t ?e with _ => _ end] =>
          match type of d with driver => destruct (d t e) eqn:? end
      | |- context [if is_operational ?x then _ else _] =>
          destruct (is_operational x) eqn:?
      | |- context [truthy ?x] => is_var x; destruct (truthy x) eqn:?
      | |- context [match get_prop ?v ?k with _ => _ end] =>
          destruct (get_prop v k) eqn:?
      | |- context [match ?v with VArr _ => _ | _ => _ end] =>
          is_var v; destruct v
      | |- context [if ?b then _ else _] => is_var b; destruct b
      end ].

Lemma createCollection_shape d self name collection b w :
  exists evs o,
    createCollection d self name collection (optional_cb b) w
    = (Ok (length (cells w)),
       mkWorld (trace w ++ DbOpen (database self) :: evs) (cells w ++ [o]))
    /\ none is_open evs = true
    /\ closed_before_reject false evs = true.
Proof.
  destruct w as [t cs]. cbn [trace cells].
  unfold createCollection, ensureIndexes, createIndex, close_then_reject, close.
  js_explore;
    (eexists; eexists; split; [reflexivity | split; reflexivity]).
Qed.

Lemma dropCollection_shape d self name b w :
  exists evs o,
    dropCollection d self name (optional_cb b) w
    = (Ok (length (cells w)),
       mkWorld (trace w ++ DbOpen (database self) :: evs) (cells w ++ [o]))
    /\ none is_open evs = true
    /\ closed_before_reject false evs = true.
Proof.
  destruct w as [t cs]. cbn [trace cells].
  unfold dropCollection, close_then_reject, close.
  js_explore;
    (eexists; eexists; split; [reflexivity | split; reflexivity]).
Qed.

Lemma authenticate_shape d self b w :
  exists evs o,
    authenticate d self (optional_cb b) w
    = (Ok (length (cells w)), mkWorld (trace w ++ evs) (cells w ++ [o]))
    /\ (count is_authenticate evs <= 1)%nat
    /\ (count is_close evs <= 1)%nat
    /\ none is_open evs = true.
Proof.
  destruct w as [t cs]. cbn [trace cells].
  unfold authenticate, close, authenticate_failed.
  js_explore;
    (eexists; eexists;
     split; [reflexivity | cbn; repeat split; lia]).
Qed.

Lemma open_shape d self b w :
  exists evs o inner,
    open d self (optional_cb b) w
    = (Ok (length (cells w)),
       mkWorld (trace w ++ DbOpen (database self) :: evs)
               (cells w ++ o :: inner))
    /\ none is_open evs = true
    /\ (count is_authenticate evs <= 1)%nat
    /\ (length inner <= 1)%nat
    /\ (forall v, o <> Fulfilled v).
Proof.
  destruct w as [t cs]. cbn [trace cells].
  unfold open, authenticate, close, authenticate_failed.
  js_explore;
    (eexists; eexists; eexists;
     split; [reflexivity | cbn; repeat split; try lia; discriminate]).
Qed.

(** ** Index creation *)

(** X1. Whatever the array of index specifications, the empty one
    included, [ensureIndexes] calls the driver's index-ensure exactly
    once, with [undefined] as definition and as options; its result is the
    driver's answer to that call, a supplied callback is called with that
    answer in node style, and no deferred result is created or settled. *)
Theorem ensureIndexes_any_array_one_call :
  forall d collection items b w,
    let o := d (trace w) (EnsureIndex collection VUndefined VUndefined) in
    ensureIndexes d collection (VArr items) (optional_cb b) w
    = (Ok o,
       mkWorld (trace w ++ EnsureIndex collection VUndefined VUndefined
                  :: (if b then
                        match o with
                        | Pending => []
                        | Fulfilled x => [Nodeback VNull x]
                        | Rejected e => [Nodeback (nodeback_error e) VUndefined]
                        end
                      else []))
               (cells w)).
Proof. intros. apply ensureIndexes_single_call. Qed.

(** ** Creating a collection: the failure paths *)

(** X2. When the driver reports an error for the creation call,
    [createCollection] makes no index call: it calls the driver's close
    and, once that has succeeded, rejects its result with the driver's
    error, which a supplied callback then receives. *)
Theorem createCollection_creation_error_closes_then_rejects :
  forall d self name collection b w v e c,
    let db := database self in
    let p := length (cells w) in
    d (trace w) (DbOpen db) = Fulfilled v ->
    d (trace w ++ [DbOpen db]) (DbCreateCollection db name) = Rejected e ->
    is_operational e = true ->
    d (trace w ++ [DbOpen db; DbCreateCollection db name]) (DbClose db)
    = Fulfilled c ->
    createCollection d self name collection (optional_cb b) w
    = (Ok p,
       mkWorld (trace w ++ [DbOpen db; DbCreateCollection db name; DbClose db;
                            Reject p e]
                  ++ (if b then [Nodeback e VUndefined] else []))
               (cells w ++ [Rejected e])).
Proof.
  intros d self name collection b w v e c db p H1 H2 Hop H3.
  now apply createCollection_create_error_rejected with (v := v) (c := c).
Qed.

Lemma createCollection_creation_error_closes_then_rejects_witness :
  createCollection (driver_rejecting is_create collection_exists) local
    (VStr "users") users_spec (optional_cb true) init
  = (Ok 0%nat,
     mkWorld [DbOpen (database local);
              DbCreateCollection (database local) (VStr "users");
              DbClose (database local);
              Reject 0 collection_exists;
              Nodeback collection_exists VUndefined]
             [Rejected collection_exists]).
Proof.
  exact (createCollection_creation_error_closes_then_rejects
           (driver_rejecting is_create collection_exists) local (VStr "users")
           users_spec true init VUndefined collection_exists VUndefined
           eq_refl eq_refl eq_refl eq_refl).
Defined.

(** X3. When the index call fails with an error, thrown or reported, the
    callback given to [ensureIndexes] closes the connection and rejects
    the result with that error, and a supplied callback is called once.
    If the error is an operational one the [.error] handler of
    [createCollection] runs as well, so the driver's close is called a
    second time.  (The driver's close is taken to succeed whenever it is
    called.) *)
Theorem createCollection_index_error_closes_and_rejects :
  forall d self name collection items b w v r e,
    let db := database self in
    let p := length (cells w) in
    let run := createCollection d self name collection (optional_cb b) w in
    d (trace w) (DbOpen db) = Fulfilled v ->
    d (trace w ++ [DbOpen db]) (DbCreateCollection db name) = Fulfilled r ->
    get_prop collection "indexes" = Some (VArr items) ->
    d (trace w ++ [DbOpen db; DbCreateCollection db name])
      (EnsureIndex r VUndefined VUndefined) = Rejected e ->
    truthy e = true ->
    (forall t, exists c, d t (DbClose db) = Fulfilled c) ->
    exists evs,
      trace (snd run) = trace w ++ evs
      /\ count is_close evs = (if is_operational e then 2 else 1)%nat
      /\ count is_ensure evs = 1%nat
      /\ count is_nodeback evs = (if b then 1 else 0)%nat
      /\ state (snd run) p = Rejected e.
Proof.
  intros d self name collection items b w v r e db p run H1 H2 H3 H4 Te Hc.
  subst run p db. destruct w as [t cs]. cbn [trace cells] in *.
  destruct (Hc (t ++ [DbOpen (database self);
                      DbCreateCollection (database self) name;
                      EnsureIndex r VUndefined VUndefined])) as [c1 Hc1].
  destruct (Hc (t ++ [DbOpen (database self);
                      DbCreateCollection (database self) name;
                      EnsureIndex r VUndefined VUndefined;
                      DbClose (database self); Reject (length cs) e]))
    as [c2 Hc2].
  unfold createCollection, ensureIndexes, createIndex, close_then_reject, close.
  destruct (is_operational e) eqn:Hop;
    js_run; rewrite ?settle_on_rejected; js_run;
    destruct b; js_run; (eexists; split; [reflexivity | now cbn]).
Qed.

Lemma createCollection_index_error_closes_and_rejects_witness :
  exists evs,
    trace (snd (createCollection (driver_rejecting is_ensure index_failed)
                  local (VStr "users") users_spec (optional_cb true) init))
    = evs
    /\ count is_close evs = 1%nat
    /\ state (snd (createCollection (driver_rejecting is_ensure index_failed)
                     local (VStr "users") users_spec (optional_cb true) init))
             0
       = Rejected index_failed.
Proof.
  destruct (createCollection_index_error_closes_and_rejects
              (driver_rejecting is_ensure index_failed) local (VStr "users")
              users_spec [name_index; age_index] true init VUndefined
              users_handle index_failed
              eq_refl eq_refl eq_refl eq_refl eq_refl
              (fun t => ex_intro _ VUndefined eq_refl))
    as (evs & Ht & Hclose & _ & _ & Hs).
  exists evs. split; [exact Ht | split; [exact Hclose | exact Hs]].
Defined.



(** X5. When the specification argument itself is [undefined] or [null],
    reading its [indexes] throws inside the [.then] handler; the error is
    not an operational one, so the [.error] handler does not see it: the
    connection is left open (no close call), the result stays pending and
    a supplied callback is never called. *)
Theorem createCollection_without_spec_leaves_connection_open :
  forall d self name collection b w v r,
    let db := database self in
    d (trace w) (DbOpen db) = Fulfilled v ->
    d (trace w ++ [DbOpen db]) (DbCreateCollection db name) = Fulfilled r ->
    get_prop collection "indexes" = None ->
    createCollection d self name collection (optional_cb b) w
    = (Ok (length (cells w)),
       mkWorld (trace w ++ [DbOpen db; DbCreateCollection db name])
               (cells w ++ [Pending])).
Proof.
  intros d self name collection b w v r db H1 H2 H3.
  subst db. destruct w as [t cs]. cbn [trace cells] in *.
  unfold createCollection, ensureIndexes, createIndex, close_then_reject, close.
  js_run. unfold type_error. cbn [truthy is_operational]. js_run.
  destruct b; js_run; reflexivity.
Qed.

Lemma createCollection_without_spec_leaves_connection_open_witness :
  createCollection driver_ok local (VStr "users") VUndefined
    (optional_cb true) init
  = (Ok 0%nat,
     mkWorld [DbOpen (database local);
              DbCreateCollection (database local) (VStr "users")]
             [Pending]).
Proof.
  exact (createCollection_without_spec_leaves_connection_open driver_ok local
           (VStr "users") VUndefined true init VUndefined users_handle
           eq_refl eq_refl eq_refl).
Defined.

(** ** What holds on every path *)

(** X6. In [createCollection] and in [dropCollection], whatever the
    driver answers and whatever the arguments, no [reject] happens before
    the driver's close has been called: a failure is never reported ahead
    of the teardown. *)
Theorem schema_methods_close_before_rejecting :
  forall d self name collection b w,
    (exists evs,
        trace (snd (createCollection d self name collection
                      (optional_cb b) w))
        = trace w ++ evs
        /\ closed_before_reject false evs = true)
    /\ (exists evs,
           trace (snd (dropCollection d self name (optional_cb b) w))
           = trace w ++ evs
           /\ closed_before_reject false evs = true).
Proof.
  intros d self name collection b w. split.
  - destruct (createCollection_shape d self name collection b w)
      as (evs & o & Hrun & _ & Hc).
    exists (DbOpen (database self) :: evs). now rewrite Hrun.
  - destruct (dropCollection_shape d self name b w)
      as (evs & o & Hrun & _ & Hc).
    exists (DbOpen (database self) :: evs). now rewrite Hrun.
Qed.

(** X7. [createCollection], [dropCollection] and [open] each begin by
    calling the driver's open on the database handle, and never call it a
    second time, whatever happens afterwards: a failed step is not
    retried by reopening. *)
Theorem connection_opened_once_and_first :
  forall d self name collection b w,
    (exists evs,
        trace (snd (createCollection d self name collection
                      (optional_cb b) w))
        = trace w ++ DbOpen (database self) :: evs
        /\ none is_open evs = true)
    /\ (exists evs,
           trace (snd (dropCollection d self name (optional_cb b) w))
           = trace w ++ DbOpen (database self) :: evs
           /\ none is_open evs = true)
    /\ (exists evs,
           trace (snd (open d self (optional_cb b) w))
           = trace w ++ DbOpen (database self) :: evs
           /\ none is_open evs = true).
Proof.
  intros d self name collection b w. split; [| split].
  - destruct (createCollection_shape d self name collection b w)
      as (evs & o & Hrun & Hn & _).
    exists evs. now rewrite Hrun.
  - destruct (dropCollection_shape d self name b w)
      as (evs & o & Hrun & Hn & _).
    exists evs. now rewrite Hrun.
  - destruct (open_shape d self b w) as (evs & o & inner & Hrun & Hn & _).
    exists evs. now rewrite Hrun.
Qed.

(** X8. [authenticate] never opens the connection, and on every path it
    calls the driver's authentication at most once and the driver's close
    at most once. *)
Theorem authenticate_single_attempt :
  forall d self b w,
    exists evs,
      trace (snd (authenticate d self (optional_cb b) w)) = trace w ++ evs
      /\ (count is_authenticate evs <= 1)%nat
      /\ (count is_close evs <= 1)%nat
      /\ none is_open evs = true.
Proof.
  intros d self b w.
  destruct (authenticate_shape d self b w) as (evs & o & Hrun & H).
  exists evs. now rewrite Hrun.
Qed.

(** X9. No method throws to its caller, and none touches the deferred
    results of earlier operations: [createCollection], [dropCollection]
    and [authenticate] return a new deferred result and add exactly that
    one; [open] returns a new one and adds at most one more, the inner
    result of [authenticate]. *)
Theorem methods_return_a_new_result :
  forall d self name collection b w,
    (exists o,
        fst (createCollection d self name collection (optional_cb b) w)
        = Ok (length (cells w))
        /\ cells (snd (createCollection d self name collection
                         (optional_cb b) w))
           = cells w ++ [o])
    /\ (exists o,
           fst (dropCollection d self name (optional_cb b) w)
           = Ok (length (cells w))
           /\ cells (snd (dropCollection d self name (optional_cb b) w))
              = cells w ++ [o])
    /\ (exists o,
           fst (authenticate d self (optional_cb b) w)
           = Ok (length (cells w))
           /\ cells (snd (authenticate d self (optional_cb b) w))
              = cells w ++ [o])
    /\ (exists o inner,
           fst (open d self (optional_cb b) w) = Ok (length (cells w))
           /\ cells (snd (open d self (optional_cb b) w))
              = cells w ++ o :: inner
           /\ (length inner <= 1)%nat).
Proof.
  intros d self name collection b w. repeat split.
  - destruct (createCollection_shape d self name collection b w)
      as (evs & o & Hrun & _).
    exists o. now rewrite Hrun.
  - destruct (dropCollection_shape d self name b w) as (evs & o & Hrun & _).
    exists o. now rewrite Hrun.
  - destruct (authenticate_shape d self b w) as (evs & o & Hrun & _).
    exists o. now rewrite Hrun.
  - destruct (open_shape d self b w)
      as (evs & o & inner & Hrun & _ & _ & Hl & _).
    exists o, inner. now rewrite Hrun.
Qed.

(** X10. The result returned by [open] and the result returned by
    [dropCollection] are never fulfilled, whatever the driver answers:
    neither method calls [resolve] on its own result. *)
Theorem open_and_dropCollection_never_fulfil :
  forall d self name b w v,
    state (snd (open d self (optional_cb b) w)) (length (cells w))
    <> Fulfilled v
    /\ state (snd (dropCollection d self name (optional_cb b) w))
             (length (cells w))
       <> Fulfilled v.
Proof.
  intros d self name b w v. split.
  - destruct (open_shape d self b w)
      as (evs & o & inner & Hrun & _ & _ & _ & Ho).
    rewrite Hrun; cbn [snd]. rewrite state_fresh. apply Ho.
  - apply dropCollection_never_fulfils.
Qed.

(** X11. When the driver's open does not succeed (it reports an error,
    throws, or never answers), nothing further is attempted on the
    connection: [createCollection] and [dropCollection] stop after the
    open call with their result pending and the callback not called, and
    [open] makes no other driver call. *)
Theorem nothing_attempted_after_failed_open :
  forall d self name collection b w,
    let db := database self in
    (forall v, d (trace w) (DbOpen db) <> Fulfilled v) ->
    createCollection d self name collection (optional_cb b) w
    = (Ok (length (cells w)),
       mkWorld (trace w ++ [DbOpen db]) (cells w ++ [Pending]))
    /\ dropCollection d self name (optional_cb b) w
       = (Ok (length (cells w)),
          mkWorld (trace w ++ [DbOpen db]) (cells w ++ [Pending]))
    /\ (exists evs,
           trace (snd (open d self (optional_cb b) w))
           = trace w ++ DbOpen db :: evs
           /\ none is_driver_call evs = true).
Proof.
  intros d self name collection b w db Hopen.
  subst db. destruct w as [t cs]. cbn [trace cells] in *.
  unfold createCollection, dropCollection, open.
  destruct (d t (DbOpen (database self))) as [| v | e] eqn:E;
    [| now destruct (Hopen v) |].
  - repeat split; js_explore; try reflexivity.
    all: eexists; split; reflexivity.
  - repeat split; js_explore; try reflexivity.
    all: eexists; split; reflexivity.
Qed.

Lemma nothing_attempted_after_failed_open_witness :
  createCollection (driver_rejecting is_open connection_refused) bob_secret
    (VStr "users") no_indexes (optional_cb true) init
  = (Ok 0%nat, mkWorld [DbOpen (database bob_secret)] [Pending])
  /\ exists evs,
       trace (snd (open (driver_rejecting is_open connection_refused)
                     bob_secret (optional_cb true) init))
       = DbOpen (database bob_secret) :: evs
       /\ none is_driver_call evs = true.
Proof.
  destruct (nothing_attempted_after_failed_open
              (driver_rejecting is_open connection_refused) bob_secret
              (VStr "users") no_indexes true init)
    as (Hc & _ & Ho).
  - intros v; discriminate.
  - split; [exact Hc | exact Ho].
Defined.

(** ** Dropping a collection *)



(** ** Opening and authenticating *)

(** X13. When the driver reports an error for the open call, [open]
    makes no authentication attempt and rejects its result with that
    error, which a supplied callback receives. *)
Theorem open_error_rejects :
  forall d self b w e,
    d (trace w) (DbOpen (database self)) = Rejected e ->
    is_operational e = true ->
    open d self (optional_cb b) w
    = (Ok (length (cells w)),
       mkWorld (trace w ++ [DbOpen (database self);
                            Reject (length (cells w)) e]
                  ++ (if b then [Nodeback e VUndefined] else []))
               (cells w ++ [Rejected e])).
Proof. intros. now apply open_error_rejected. Qed.

Lemma open_error_rejects_witness :
  open (driver_rejecting is_open connection_refused) bob_secret
    (optional_cb true) init
  = (Ok 0%nat,
     mkWorld [DbOpen (database bob_secret);
              Reject 0 connection_refused;
              Nodeback connection_refused VUndefined]
             [Rejected connection_refused]).
Proof.
  exact (open_error_rejects (driver_rejecting is_open connection_refused)
           bob_secret true init connection_refused eq_refl eq_refl).
Defined.

(** X14. When the open succeeds and the driver reports an error for the
    authentication call, the driver's close is called once; after it has
    succeeded the inner result of [authenticate] and then the result of
    [open] are rejected with the driver's error, and a supplied callback,
    which [open] also hands to [authenticate], is called twice. *)
Theorem open_authentication_error_rejects_and_calls_back_twice :
  forall d self b w u pw v e c,
    let db := database self in
    let attempt :=
      DbAuthenticate db (or_else u (VStr "")) (or_else pw (VStr "")) in
    let p := length (cells w) in
    credentials self = Some (u, pw) ->
    truthy u || truthy pw = true ->
    d (trace w) (DbOpen db) = Fulfilled v ->
    d (trace w ++ [DbOpen db]) attempt = Rejected e ->
    is_operational e = true ->
    d (trace w ++ [DbOpen db; attempt]) (DbClose db) = Fulfilled c ->
    open d self (optional_cb b) w
    = (Ok p,
       mkWorld (trace w ++ [DbOpen db; attempt; DbClose db; Reject (S p) e]
                  ++ (if b then [Nodeback e VUndefined] else [])
                  ++ [Reject p e]
                  ++ (if b then [Nodeback e VUndefined] else []))
               (cells w ++ [Rejected e; Rejected e])).
Proof.
  intros d self b w u pw v e c db attempt p Hc T H1 H2 Hop H3.
  now apply open_authentication_error_rejected with (v := v) (c := c).
Qed.

Lemma open_authentication_error_rejects_and_calls_back_twice_witness :
  open (driver_rejecting is_authenticate auth_fails) bob_secret
    (optional_cb true) init
  = (Ok 0%nat,
     mkWorld [DbOpen (database bob_secret);
              DbAuthenticate (database bob_secret) (VStr "bob")
                (VStr "s3cret");
              DbClose (database bob_secret);
              Reject 1 auth_fails;
              Nodeback auth_fails VUndefined;
              Reject 0 auth_fails;
              Nodeback auth_fails VUndefined]
             [Rejected auth_fails; Rejected auth_fails]).
Proof.
  exact (open_authentication_error_rejects_and_calls_back_twice
           (driver_rejecting is_authenticate auth_fails) bob_secret true init
           (VStr "bob") (VStr "s3cret") VUndefined auth_fails VUndefined
           eq_refl eq_refl eq_refl eq_refl eq_refl eq_refl).
Defined.

(** X15. When credentials are configured and the driver accepts them,
    [authenticate] resolves its result with [undefined] (not with the
    driver's answer), calls a supplied callback with a null error, and
    does not close the connection. *)
Theorem authenticate_success_resolves_without_closing :
  forall d self b w u pw x,
    let attempt :=
      DbAuthenticate (database self)
        (or_else u (VStr "")) (or_else pw (VStr "")) in
    let p := length (cells w) in
    credentials self = Some (u, pw) ->
    truthy u || truthy pw = true ->
    d (trace w) attempt = Fulfilled x ->
    authenticate d self (optional_cb b) w
    = (Ok p,
       mkWorld (trace w ++ [attempt; Resolve p VUndefined]
                  ++ (if b then [Nodeback VNull VUndefined] else []))
               (cells w ++ [Fulfilled VUndefined])).
Proof.
  intros d self b w u pw x attempt p
         (auth & Ha & Hu & Hp)%credentials_inv T Hx.
  subst attempt p. destruct w as [t cs]. cbn [trace cells] in *.
  unfold authenticate, or_else in *.
  destruct (truthy u) eqn:Tu; destruct (truthy pw) eqn:Tp; try discriminate;
    js_run; destruct b; js_run; reflexivity.
Qed.

Lemma authenticate_success_resolves_without_closing_witness :
  authenticate driver_ok bob_secret (optional_cb true) init
  = (Ok 0%nat,
     mkWorld [DbAuthenticate (database bob_secret) (VStr "bob")
                (VStr "s3cret");
              Resolve 0 VUndefined;
              Nodeback VNull VUndefined]
             [Fulfilled VUndefined]).
Proof.
  exact (authenticate_success_resolves_without_closing driver_ok bob_secret
           true init (VStr "bob") (VStr "s3cret") VUndefined
           eq_refl eq_refl eq_refl).
Defined.

(** X16. The credentials given to the constructor are the ones the driver
    is asked to check: on an instance built from a configuration with
    both [user] and [password] set, the first thing [authenticate] does is
    to call the driver's authentication with exactly those two values. *)
Theorem authenticate_uses_configured_credentials :
  forall d arg w0 self w1 b w,
    new_Connection arg w0 = (Ok self, w1) ->
    let u := field (config self) "user" in
    let pw := field (config self) "password" in
    truthy u = true ->
    truthy pw = true ->
    exists rest,
      trace (snd (authenticate d self (optional_cb b) w))
      = trace w ++ DbAuthenticate (database self) u pw :: rest.
Proof.
  intros d arg w0 self w1 b w Hnew u pw Tu Tp.
  rewrite new_Connection_run in Hnew. injection Hnew as <- _.
  pose proof (credentials_constructed arg) as Hc.
  change (credentials (constructed arg) = Some (u, pw)) in Hc.
  destruct (authenticate_calls_driver d _ b w u pw Hc) as [rest Hr].
  { now rewrite Tu. }
  exists rest. rewrite Hr. unfold or_else. now rewrite Tu, Tp.
Qed.

Lemma authenticate_uses_configured_credentials_witness :
  exists rest,
    trace (snd (authenticate driver_ok bob_secret (optional_cb false) init))
    = DbAuthenticate (database bob_secret) (VStr "bob") (VStr "s3cret")
        :: rest.
Proof.
  exact (authenticate_uses_configured_credentials driver_ok
           (Some bob_secret_config) init _ _ false init
           (new_Connection_run _ _) eq_refl eq_refl).
Defined.

(** ** Closing *)

(** X17. [close] keeps no record of whether the connection is open: every
    call is passed to the driver's close on the database handle, the
    driver's answer is what [close] returns, a supplied callback is called
    with it in node style, and no deferred result is created or settled.
    Two calls in a row therefore reach the driver twice. *)
Theorem close_passes_every_call_to_the_driver :
  forall d self b w,
    let db := database self in
    let o1 := d (trace w) (DbClose db) in
    let o2 :=
      d (trace w ++ DbClose db :: nodeback_events b o1) (DbClose db) in
    close d self (optional_cb b) w
    = (Ok o1,
       mkWorld (trace w ++ DbClose db :: nodeback_events b o1) (cells w))
    /\ (close d self (optional_cb b) ;; close d self (optional_cb b)) w
       = (Ok o2,
          mkWorld (trace w ++ DbClose db :: nodeback_events b o1
                     ++ DbClose db :: nodeback_events b o2)
                  (cells w)).
Proof.
  intros d self b w db o1 o2.
  assert (Hone : forall w',
             close d self (optional_cb b) w'
             = (Ok (d (trace w') (DbClose db)),
                mkWorld (trace w' ++ DbClose db
                           :: nodeback_events b (d (trace w') (DbClose db)))
                        (cells w'))).
  { intros [t cs]. subst db. unfold close, nodeback_events. cbn [trace cells].
    js_unfold.
    destruct (d t (DbClose (database self))); destruct b; js_run; reflexivity. }
  split; [apply Hone |].
  unfold bind. rewrite Hone, Hone. cbn [trace cells].
  subst o2 o1. now rewrite <- app_assoc.
Qed.
